(** * re_uniq: keep only the first line of every run of matching lines

    A shallow embedding of [workers/re_uniq.py] and the properties of its
    filtering loop.

    The Python loop has two kinds of effect: it calls [matcher.search] and it
    writes to [output_buf].  Both are recorded in an event log, one log per
    loop iteration, so that the output sequence and the number of matcher
    calls per input line can be read off the same run. *)

From Stdlib Require Import List ZArith String Bool Arith Lia Sorting.Sorted.
Import ListNotations.

Local Open Scope string_scope.
Local Open Scope list_scope.
Local Open Scope nat_scope.

(* [String] exports its own [length]; lists are meant throughout. *)
Local Abbreviation length := List.length (only parsing).

(** ** Effects *)

Inductive event : Type :=
| Search (line : string)   (* a call [matcher.search(line)] *)
| Write (line : string).   (* a call [output_buf.write(line)] *)

(** A computation returns a value together with the events it performed. *)
Definition M (A : Type) : Type := (A * list event)%type.

Definition ret {A : Type} (a : A) : M A := (a, []).

Definition bind {A B : Type} (m : M A) (k : A -> M B) : M B :=
  let '(a, e1) := m in
  let '(b, e2) := k a in
  (b, e1 ++ e2).

Declare Scope re_uniq_scope.
Delimit Scope re_uniq_scope with M.
Notation "x <- m ;; k" := (bind m (fun x => k))
  (at level 61, m at next level, right associativity) : re_uniq_scope.
Notation "m ;; k" := (bind m (fun _ => k))
  (at level 61, right associativity) : re_uniq_scope.

(** The lines written by a sequence of events, in order. *)
Fixpoint writes (evs : list event) : list string :=
  match evs with
  | [] => []
  | Write line :: rest => line :: writes rest
  | Search _ :: rest => writes rest
  end.

(** The arguments of the matcher calls made by a sequence of events. *)
Fixpoint searches (evs : list event) : list string :=
  match evs with
  | [] => []
  | Search line :: rest => line :: searches rest
  | Write _ :: rest => searches rest
  end.

(** A concrete matcher for the examples: [re.compile(pat).search] for a
    pattern of literal characters is substring search. *)
Fixpoint contains (pat line : string) : bool :=
  String.prefix pat line ||
  match line with
  | EmptyString => false
  | String _ rest => contains pat rest
  end.

Section ReUniq.

(** [matcher.search(line)] as a truth value: a match object is truthy,
    [None] is falsy.  The compiled pattern is fixed for one pass. *)
Variable matcher : string -> bool.

Definition search (line : string) : M bool := (matcher line, [Search line]).
Definition write (line : string) : M unit := (tt, [Write line]).

(** ** The loop body

    One iteration of [for i, line in enumerate(input_buf)], returning the
    value of [found] after the iteration.  Python's [and] evaluates its
    right operand only when the left one is truthy; the right operand here
    is a pure comparison, so only the call on the left is an event.  Both
    [continue] branches skip the final write. *)
Definition body (i : Z) (line : string) (found : Z) : M Z :=
  (m1 <- search line ;;
   if m1 && negb (i - found =? 1)%Z then
     write line ;; ret i
   else
     m2 <- search line ;;
     if m2 && (i - found =? 1)%Z then
       ret i
     else
       write line ;; ret found)%M.

(** The [for] loop over the remaining input, started at index [i] with the
    current [found]: the final [found] and the event log of each iteration. *)
Fixpoint loop (i found : Z) (input_buf : list string) : Z * list (list event) :=
  match input_buf with
  | [] => (found, [])
  | line :: rest =>
      let '(found', evs) := body i line found in
      let '(final, logs) := loop (i + 1) found' rest in
      (final, evs :: logs)
  end.

(** A whole pass: [found = -2], then the loop from index 0. *)
Definition run (input_buf : list string) : Z * list (list event) :=
  loop 0 (-2) input_buf.

Definition iterations (input_buf : list string) : list (list event) :=
  snd (run input_buf).

(** What [main] leaves in [output_buf]. *)
Definition main (input_buf : list string) : list string :=
  writes (List.concat (iterations input_buf)).

(** The value of [found] once the first [n] lines have been processed. *)
Definition found_after (n : nat) (input_buf : list string) : Z :=
  fst (run (firstn n input_buf)).

(** The value of [found] seen by the iteration that processes line [j]. *)
Definition found_before (j : nat) (input_buf : list string) : Z :=
  found_after j input_buf.

(** The events of the iteration that processes line [j]. *)
Definition iteration (input_buf : list string) (j : nat) : list event :=
  nth j (iterations input_buf) [].

(** ** The loop as an iterator-driven machine

    The same loop, one iteration per step: [pending] is what the iterator
    over [input_buf] has not yet produced, [log] the iterations done. *)
Record state : Type := mkState {
  pending : list string;
  idx : Z;
  cursor : Z;
  log : list (list event)
}.

Definition start (input_buf : list string) : state :=
  mkState input_buf 0 (-2) [].

(** [None] when the iterator is exhausted and the loop exits. *)
Definition step (st : state) : option state :=
  match pending st with
  | [] => None
  | line :: rest =>
      let '(found', evs) := body (idx st) line (cursor st) in
      Some (mkState rest (idx st + 1) found' (log st ++ [evs]))
  end.

(** Run until the loop exits; [None] if the fuel runs out first. *)
Fixpoint exec (fuel : nat) (st : state) : option (Z * list (list event)) :=
  match fuel with
  | O => None
  | S fuel' =>
      match step st with
      | None => Some (cursor st, log st)
      | Some st' => exec fuel' st'
      end
  end.

(** ** Vocabulary of the properties *)

(** Does line [j] exist and match? *)
Definition matches_at (lines : list string) (j : nat) : bool :=
  match nth_error lines j with
  | Some line => matcher line
  | None => false
  end.

(** Does the line just before line [j] exist and match? *)
Definition prev_matches (lines : list string) (j : nat) : bool :=
  match j with
  | O => false
  | S p => matches_at lines p
  end.

(** [lines[s .. s+k-1]] is a maximal run of matching lines: [k >= 1], every
    line in it matches, and neither neighbour does. *)
Definition maximal_run (lines : list string) (s k : nat) : bool :=
  (1 <=? k) && forallb (matches_at lines) (seq s k)
  && negb (prev_matches lines s) && negb (matches_at lines (s + k)).

Definition in_run (s k j : nat) : bool := (s <=? j) && (j <? s + k).

Definition has_write (evs : list event) : bool :=
  match writes evs with [] => false | _ :: _ => true end.

(** The indices of the iterations that wrote a line, in order. *)
Fixpoint emitted_from (j : nat) (logs : list (list event)) : list nat :=
  match logs with
  | [] => []
  | evs :: rest =>
      if has_write evs then j :: emitted_from (S j) rest
      else emitted_from (S j) rest
  end.

Definition emitted (lines : list string) : list nat :=
  emitted_from 0 (iterations lines).

(** The index of the last matching line that was written, if any. *)
Definition last_emitted_match (lines : list string) : option nat :=
  match rev (filter (matches_at lines) (emitted lines)) with
  | [] => None
  | j :: _ => Some j
  end.

(** Does the list start with a matching line? *)
Definition head_matches (lines : list string) : bool :=
  match lines with
  | [] => false
  | line :: _ => matcher line
  end.

(** No two neighbours in the list both match. *)
Fixpoint no_adjacent_matches (lines : list string) : bool :=
  match lines with
  | [] => true
  | a :: rest =>
      negb (matcher a && head_matches rest) && no_adjacent_matches rest
  end.

(** A closed form of the output, used in the proofs: [prev] tells whether
    the line before the head matched. *)
Fixpoint collapse (prev : bool) (lines : list string) : list string :=
  match lines with
  | [] => []
  | line :: rest =>
      if matcher line && prev then collapse (matcher line) rest
      else line :: collapse (matcher line) rest
  end.

(** The events one iteration performs on a line, given whether the
    adjacency test [i - found == 1] holds; [body_eq] shows it is what
    [body] does. *)
Definition shape (adjacent : bool) (line : string) : list event :=
  if matcher line then
    if adjacent then [Search line; Search line] else [Search line; Write line]
  else [Search line; Search line; Write line].

(** Does the input end with a matching line? *)
Definition last_matches (lines : list string) : bool :=
  prev_matches lines (length lines).

(** The rule by which line [j] is written: unless it matches and the line
    before it matches too. *)
Definition kept (lines : list string) (j : nat) : bool :=
  negb (matches_at lines j && prev_matches lines j).

(** The machine state once the first [n] lines of [lines] are processed. *)
Definition reached (lines : list string) (n : nat) (st : state) : Prop :=
  pending st = skipn n lines
  /\ idx st = Z.of_nat n
  /\ cursor st = found_after n lines
  /\ log st = iterations (firstn n lines).

(** ** Basic facts about event logs *)

Lemma writes_app (e1 e2 : list event) : writes (e1 ++ e2) = writes e1 ++ writes e2.
Proof.
  induction e1 as [|[l|l] e1 IH]; simpl; [reflexivity | exact IH | now rewrite IH].
Qed.

Lemma searches_app (e1 e2 : list event) :
  searches (e1 ++ e2) = searches e1 ++ searches e2.
Proof.
  induction e1 as [|[l|l] e1 IH]; simpl; [reflexivity | now rewrite IH | exact IH].
Qed.

(** The three paths through the loop body. *)
Lemma body_eq (i : Z) (line : string) (found : Z) :
  body i line found =
  ((if matcher line then i else found), shape (i - found =? 1)%Z line).
Proof.
  unfold body, shape, bind, search, write, ret.
  destruct (matcher line), (i - found =? 1)%Z; reflexivity.
Qed.

Lemma loop_cons (i found : Z) (line : string) (rest : list string) :
  loop i found (line :: rest) =
  (fst (loop (i + 1) (if matcher line then i else found) rest),
   shape (i - found =? 1)%Z line
   :: snd (loop (i + 1) (if matcher line then i else found) rest)).
Proof.
  cbn [loop]. fold loop. rewrite body_eq.
  destruct (loop (i + 1) (if matcher line then i else found) rest); reflexivity.
Qed.

(** After a line, the adjacency test of the next iteration holds exactly
    when that line matched. *)
Lemma adjacent_next (i found : Z) (line : string) :
  (found < i)%Z ->
  (i + 1 - (if matcher line then i else found) =? 1)%Z = matcher line.
Proof.
  intros H. destruct (matcher line).
  - apply Z.eqb_eq. lia.
  - apply Z.eqb_neq. lia.
Qed.

Lemma cursor_next (i found : Z) (line : string) :
  (found < i)%Z -> ((if matcher line then i else found) < i + 1)%Z.
Proof. destruct (matcher line); lia. Qed.

Lemma loop_length (lines : list string) :
  forall i found, length (snd (loop i found lines)) = length lines.
Proof.
  induction lines as [|line rest IH]; intros i found; [reflexivity|].
  rewrite loop_cons. simpl. now rewrite IH.
Qed.

(** Processing [l1 ++ l2] is processing [l1], then [l2] from the state
    reached: the state after a prefix is the state of a pass over it. *)
Lemma loop_app (l1 l2 : list string) :
  forall i found,
    loop i found (l1 ++ l2) =
    (fst (loop (i + Z.of_nat (length l1)) (fst (loop i found l1)) l2),
     snd (loop i found l1)
     ++ snd (loop (i + Z.of_nat (length l1)) (fst (loop i found l1)) l2)).
Proof.
  induction l1 as [|line rest IH]; intros i found.
  - cbn [app length loop fst snd Z.of_nat]. rewrite Z.add_0_r.
    now destruct (loop i found l2).
  - rewrite <- app_comm_cons, !loop_cons, IH. cbn [fst snd length].
    replace (i + 1 + Z.of_nat (length rest))%Z
      with (i + Z.of_nat (S (length rest)))%Z by lia.
    reflexivity.
Qed.

(** The output is the closed form [collapse]. *)
Lemma loop_collapse (lines : list string) :
  forall i found, (found < i)%Z ->
    writes (List.concat (snd (loop i found lines)))
    = collapse (i - found =? 1)%Z lines.
Proof.
  induction lines as [|line rest IH]; intros i found H; [reflexivity|].
  rewrite loop_cons. cbn [snd List.concat collapse].
  rewrite writes_app, IH by now apply cursor_next.
  rewrite adjacent_next by assumption.
  unfold shape. destruct (matcher line), (i - found =? 1)%Z; reflexivity.
Qed.

Lemma main_collapse (lines : list string) : main lines = collapse false lines.
Proof.
  unfold main, main, iterations, run.
  now rewrite loop_collapse by lia.
Qed.

(** *** The events of each iteration *)

Lemma matches_at_cons_S (line : string) (rest : list string) (p : nat) :
  matches_at (line :: rest) (S p) = matches_at rest p.
Proof. reflexivity. Qed.

Lemma matches_at_lt (lines : list string) (j : nat) :
  matches_at lines j = true -> j < length lines.
Proof.
  unfold matches_at. intros H. apply nth_error_Some.
  destruct (nth_error lines j); [discriminate | discriminate H].
Qed.

Lemma matches_at_some (lines : list string) (j : nat) (line : string) :
  nth_error lines j = Some line -> matches_at lines j = matcher line.
Proof. unfold matches_at. now intros ->. Qed.

Lemma loop_nth (lines : list string) :
  forall i found j line,
    (found < i)%Z ->
    nth_error lines j = Some line ->
    nth j (snd (loop i found lines)) []
    = shape (match j with
             | O => (i - found =? 1)%Z
             | S p => matches_at lines p
             end) line.
Proof.
  induction lines as [|l0 rest IH]; intros i found j line Hlt Hj.
  - destruct j; discriminate Hj.
  - rewrite loop_cons. cbn [snd]. destruct j as [|j'].
    + injection Hj as ->. reflexivity.
    + cbn [nth_error] in Hj. cbn [nth].
      rewrite (IH _ _ _ _ (cursor_next i found l0 Hlt) Hj).
      destruct j' as [|p]; [|reflexivity].
      now rewrite adjacent_next.
Qed.

(** Iteration [j] does what [shape] says, the adjacency test being
    "the line before matched". *)
Lemma iteration_shape (lines : list string) (j : nat) (line : string) :
  nth_error lines j = Some line ->
  iteration lines j = shape (prev_matches lines j) line.
Proof.
  intros Hj. unfold iteration, iterations, run.
  rewrite (loop_nth lines 0 (-2) j line) by (lia || assumption).
  now destruct j.
Qed.

Lemma iterations_length (lines : list string) :
  length (iterations lines) = length lines.
Proof. apply loop_length. Qed.

Lemma writes_shape (adjacent : bool) (line : string) :
  writes (shape adjacent line)
  = if matcher line && adjacent then [] else [line].
Proof. unfold shape. now destruct (matcher line), adjacent. Qed.

Lemma has_write_shape (adjacent : bool) (line : string) :
  has_write (shape adjacent line) = negb (matcher line && adjacent).
Proof.
  unfold has_write. rewrite writes_shape.
  now destruct (matcher line && adjacent).
Qed.

Lemma searches_shape (adjacent : bool) (line : string) :
  searches (shape adjacent line)
  = if matcher line && negb adjacent then [line] else [line; line].
Proof. unfold shape. now destruct (matcher line), adjacent. Qed.

(** *** The indices that were written *)

Lemma emitted_from_In (logs : list (list event)) :
  forall b j,
    In j (emitted_from b logs) <->
    b <= j < b + length logs /\ has_write (nth (j - b) logs []) = true.
Proof.
  induction logs as [|evs rest IH]; intros b j.
  - simpl. split; [tauto | lia].
  - cbn [emitted_from length].
    assert (Hrest : In j (emitted_from (S b) rest) <->
                    S b <= j < b + S (length rest)
                    /\ has_write (nth (j - b) (evs :: rest) []) = true).
    { rewrite IH. split; intros [Hr Hw]; (split; [lia|]).
      - replace (j - b) with (S (j - S b)) by lia. exact Hw.
      - replace (j - b) with (S (j - S b)) in Hw by lia. exact Hw. }
    destruct (has_write evs) eqn:Hevs.
    + cbn [In]. rewrite Hrest. split.
      * intros [<- | [Hr Hw]]; [|split; [lia | exact Hw]].
        split; [lia|]. now rewrite Nat.sub_diag.
      * intros [Hr Hw]. destruct (Nat.eq_dec b j) as [E|E]; [now left|].
        right. split; [lia | exact Hw].
    + rewrite Hrest. split; intros [Hr Hw]; (split; [|exact Hw]); [lia|].
      destruct (Nat.eq_dec b j) as [E|E]; [|lia].
      subst j. rewrite Nat.sub_diag in Hw. cbn [nth] in Hw. congruence.
Qed.

Lemma emitted_from_sorted (logs : list (list event)) :
  forall b, StronglySorted lt (emitted_from b logs).
Proof.
  induction logs as [|evs rest IH]; intros b; [constructor|].
  cbn [emitted_from]. destruct (has_write evs); [|apply IH].
  constructor; [apply IH|].
  apply Forall_forall. intros j Hj. apply emitted_from_In in Hj. lia.
Qed.

Lemma emitted_sorted (lines : list string) : StronglySorted lt (emitted lines).
Proof. apply emitted_from_sorted. Qed.

Lemma StronglySorted_lt_NoDup (l : list nat) : StronglySorted lt l -> NoDup l.
Proof.
  induction 1 as [|a l Hs IH Hall]; constructor; [|exact IH].
  intros Hin. rewrite Forall_forall in Hall. specialize (Hall a Hin). lia.
Qed.

Lemma emitted_NoDup (lines : list string) : NoDup (emitted lines).
Proof. apply StronglySorted_lt_NoDup, emitted_sorted. Qed.

(** Line [j] is written unless it matches and the line before it matches. *)
Lemma emitted_In (lines : list string) (j : nat) :
  In j (emitted lines) <->
  j < length lines /\ matches_at lines j && prev_matches lines j = false.
Proof.
  unfold emitted. rewrite emitted_from_In, iterations_length, Nat.sub_0_r.
  split.
  - intros [Hr Hw]. split; [lia|].
    destruct (nth_error lines j) as [line|] eqn:Hj.
    + fold (iteration lines j) in Hw.
      rewrite (iteration_shape _ _ _ Hj), has_write_shape in Hw.
      rewrite (matches_at_some _ _ _ Hj). now apply negb_true_iff.
    + apply nth_error_None in Hj. lia.
  - intros [Hr Hw]. split; [lia|].
    destruct (nth_error lines j) as [line|] eqn:Hj.
    + fold (iteration lines j).
      rewrite (iteration_shape _ _ _ Hj), has_write_shape.
      rewrite (matches_at_some _ _ _ Hj) in Hw. now apply negb_true_iff.
    + apply nth_error_None in Hj. lia.
Qed.

(** The output consists of the lines at the written indices, in order. *)
Lemma loop_emitted (lines : list string) :
  forall i found b, (found < i)%Z ->
    writes (List.concat (snd (loop i found lines)))
    = map (fun j => nth (j - b) lines "") (emitted_from b (snd (loop i found lines))).
Proof.
  induction lines as [|line rest IH]; intros i found b Hlt; [reflexivity|].
  rewrite loop_cons. cbn [snd List.concat emitted_from].
  rewrite writes_app, (IH _ _ (S b) (cursor_next i found line Hlt)).
  assert (Hext : map (fun j => nth (j - S b) rest "")
                     (emitted_from (S b)
                        (snd (loop (i + 1) (if matcher line then i else found) rest)))
                 = map (fun j => nth (j - b) (line :: rest) "")
                     (emitted_from (S b)
                        (snd (loop (i + 1) (if matcher line then i else found) rest)))).
  { apply map_ext_in. intros j Hj. apply emitted_from_In in Hj.
    replace (j - b) with (S (j - S b)) by lia. reflexivity. }
  rewrite Hext, has_write_shape, writes_shape.
  destruct (matcher line && (i - found =? 1)%Z); cbn [negb app map];
    [reflexivity|].
  now rewrite Nat.sub_diag.
Qed.

Lemma main_emitted (lines : list string) :
  main lines = map (fun j => nth j lines "") (emitted lines).
Proof.
  unfold main, emitted, iterations, run.
  rewrite (loop_emitted lines 0 (-2) 0) by lia.
  apply map_ext. intros j. now rewrite Nat.sub_0_r.
Qed.

(** *** The cursor [found] *)

Lemma loop_found (lines : list string) :
  forall i found,
    (fst (loop i found lines) = found
     /\ forall t, matches_at lines t = false)
    \/ (exists k, fst (loop i found lines) = (i + Z.of_nat k)%Z
                  /\ matches_at lines k = true
                  /\ forall t, k < t -> matches_at lines t = false).
Proof.
  induction lines as [|line rest IH]; intros i found.
  - left. split; [reflexivity|]. now intros [|t].
  - rewrite loop_cons. cbn [fst].
    destruct (IH (i + 1)%Z (if matcher line then i else found))
      as [[Hf Hnone] | (k & Hf & Hk & Hafter)].
    + destruct (matcher line) eqn:Hm.
      * right. exists 0. repeat split.
        -- rewrite Hf. cbn. lia.
        -- unfold matches_at. cbn. exact Hm.
        -- intros [|t] Ht; [lia|]. rewrite matches_at_cons_S. apply Hnone.
      * left. split; [exact Hf|].
        intros [|t]; [unfold matches_at; cbn; exact Hm|].
        rewrite matches_at_cons_S. apply Hnone.
    + right. exists (S k). repeat split.
      * rewrite Hf. lia.
      * now rewrite matches_at_cons_S.
      * intros [|t] Ht; [lia|]. rewrite matches_at_cons_S. apply Hafter. lia.
Qed.

Lemma matches_at_firstn (lines : list string) (n t : nat) :
  matches_at (firstn n lines) t = (t <? n) && matches_at lines t.
Proof.
  unfold matches_at. destruct (Nat.ltb_spec t n) as [Hlt|Hge].
  - now rewrite nth_error_firstn, (proj2 (Nat.ltb_lt t n) Hlt).
  - cbn [andb].
    rewrite (proj2 (nth_error_None (firstn n lines) t)); [reflexivity|].
    rewrite length_firstn. lia.
Qed.

(** [found] is the sentinel while no line has matched; afterwards it is
    the index of the latest matching line processed. *)
Lemma found_after_spec (lines : list string) (n : nat) :
  (found_after n lines = (-2)%Z
   /\ forall t, t < n -> matches_at lines t = false)
  \/ (exists k, k < n
                /\ found_after n lines = Z.of_nat k
                /\ matches_at lines k = true
                /\ forall t, k < t < n -> matches_at lines t = false).
Proof.
  unfold found_after, run.
  destruct (loop_found (firstn n lines) 0 (-2)) as [[Hf Hnone] | (k & Hf & Hk & Hafter)].
  - left. split; [exact Hf|]. intros t Ht. specialize (Hnone t).
    rewrite matches_at_firstn, (proj2 (Nat.ltb_lt t n) Ht) in Hnone. exact Hnone.
  - right. exists k. rewrite matches_at_firstn in Hk.
    apply andb_true_iff in Hk as [Hkn Hk]. apply Nat.ltb_lt in Hkn.
    repeat split; [exact Hkn | rewrite Hf; lia | exact Hk |].
    intros t [Ht1 Ht2]. specialize (Hafter t Ht1).
    rewrite matches_at_firstn, (proj2 (Nat.ltb_lt t n) Ht2) in Hafter. exact Hafter.
Qed.

(** Every matching line lies in a run that starts at a written line. *)
Lemma run_start (lines : list string) (j : nat) :
  matches_at lines j = true ->
  exists s, s <= j
            /\ prev_matches lines s = false
            /\ forall t, s <= t <= j -> matches_at lines t = true.
Proof.
  induction j as [|p IH]; intros Hj.
  - exists 0. repeat split; [lia|]. intros t Ht. now replace t with 0 by lia.
  - destruct (matches_at lines p) eqn:Hp.
    + destruct (IH eq_refl) as (s & Hs & Hprev & Hall).
      exists s. repeat split; [lia | exact Hprev |].
      intros t Ht. destruct (Nat.eq_dec t (S p)) as [->|Hne]; [exact Hj|].
      apply Hall. lia.
    + exists (S p). repeat split; [lia | exact Hp |].
      intros t Ht. now replace t with (S p) by lia.
Qed.

Lemma firstn_S_snoc (lines : list string) :
  forall n line,
    nth_error lines n = Some line ->
    firstn (S n) lines = firstn n lines ++ [line].
Proof.
  induction lines as [|l0 rest IH]; intros n line Hn.
  - destruct n; discriminate Hn.
  - destruct n as [|n].
    + injection Hn as ->. reflexivity.
    + cbn [nth_error] in Hn. cbn [firstn app]. f_equal.
      change (firstn (S n) rest = firstn n rest ++ [line]). now apply IH.
Qed.

(** One more line: a matching line moves [found] to its index, a
    non-matching line leaves it alone. *)
Lemma found_after_S (lines : list string) (n : nat) (line : string) :
  nth_error lines n = Some line ->
  found_after (S n) lines
  = if matcher line then Z.of_nat n else found_after n lines.
Proof.
  intros Hn. unfold found_after, run.
  rewrite (firstn_S_snoc _ _ _ Hn), loop_app. cbn [fst].
  rewrite loop_cons. cbn [fst loop].
  rewrite length_firstn, Nat.min_l; [reflexivity|].
  apply Nat.lt_le_incl, nth_error_Some. now rewrite Hn.
Qed.

(** *** The last matching line written *)

Lemma StronglySorted_filter (f : nat -> bool) (l : list nat) :
  StronglySorted lt l -> StronglySorted lt (filter f l).
Proof.
  induction 1 as [|a l Hs IH Hall]; [constructor|].
  cbn [filter]. destruct (f a); [|exact IH].
  constructor; [exact IH|].
  rewrite Forall_forall in *. intros x Hx. apply Hall.
  now apply filter_In in Hx.
Qed.

Lemma sorted_rev_head (l : list nat) :
  StronglySorted lt l ->
  forall e, In e l -> (forall x, In x l -> x <= e) ->
    exists t, rev l = e :: t.
Proof.
  induction 1 as [|a l Hs IH Hall]; intros e Hin Hmax; [destruct Hin|].
  rewrite Forall_forall in Hall. cbn [rev].
  destruct l as [|b l'].
  - destruct Hin as [<-|[]]. now exists [].
  - assert (Hb : a < b) by (apply Hall; now left).
    assert (Hbe : b <= e) by (apply Hmax; right; now left).
    destruct Hin as [<-|Hin]; [lia|].
    destruct (IH e Hin) as [t Ht].
    + intros x Hx. apply Hmax. now right.
    + rewrite Ht. now exists (t ++ [a]).
Qed.

Lemma last_emitted_match_none (lines : list string) :
  (forall t, matches_at lines t = false) ->
  last_emitted_match lines = None.
Proof.
  intros Hnone. unfold last_emitted_match.
  destruct (filter (matches_at lines) (emitted lines)) as [|x t] eqn:Hf;
    [reflexivity|].
  assert (Hx : In x (filter (matches_at lines) (emitted lines)))
    by (rewrite Hf; now left).
  apply filter_In in Hx as [_ Hx]. now rewrite Hnone in Hx.
Qed.

(** If [k] is the last matching line and [e] the first line of its run,
    the last matching line written is [e]. *)
Lemma last_emitted_match_some (lines : list string) (k e : nat) :
  matches_at lines k = true ->
  (forall t, k < t -> matches_at lines t = false) ->
  e <= k ->
  prev_matches lines e = false ->
  (forall t, e <= t <= k -> matches_at lines t = true) ->
  last_emitted_match lines = Some e.
Proof.
  intros Hk Hafter Hek Hprev Hall. unfold last_emitted_match.
  destruct (sorted_rev_head (filter (matches_at lines) (emitted lines))
              (StronglySorted_filter _ _ (emitted_sorted lines)) e)
    as [t Ht].
  - apply filter_In. assert (He : matches_at lines e = true) by (apply Hall; lia).
    split; [|exact He]. apply emitted_In. split; [now apply matches_at_lt|].
    now rewrite He, Hprev.
  - intros x Hx. apply filter_In in Hx as [Hem Hx].
    apply emitted_In in Hem as [_ Hem]. rewrite Hx in Hem. cbn [andb] in Hem.
    destruct (Nat.le_gt_cases x e) as [Hle|Hgt]; [exact Hle|].
    destruct (Nat.le_gt_cases x k) as [Hxk|Hxk].
    + destruct x as [|p]; [lia|]. cbn [prev_matches] in Hem.
      rewrite Hall in Hem by lia. discriminate Hem.
    + rewrite (Hafter x Hxk) in Hx. discriminate Hx.
  - now rewrite Ht.
Qed.

(** *** The closed form [collapse] *)

Lemma collapse_no_match (lines : list string) :
  (forall line, In line lines -> matcher line = false) ->
  forall prev, collapse prev lines = lines.
Proof.
  induction lines as [|line rest IH]; intros Hall prev; [reflexivity|].
  cbn [collapse]. rewrite (Hall line (or_introl eq_refl)). cbn [andb].
  f_equal. apply IH. intros l Hl. apply Hall. now right.
Qed.

Lemma collapse_all_match (lines : list string) :
  (forall line, In line lines -> matcher line = true) ->
  collapse true lines = [].
Proof.
  induction lines as [|line rest IH]; intros Hall; [reflexivity|].
  cbn [collapse]. rewrite (Hall line (or_introl eq_refl)). cbn [andb].
  apply IH. intros l Hl. apply Hall. now right.
Qed.

Lemma collapse_filter_nonmatching (lines : list string) :
  forall prev,
    filter (fun line => negb (matcher line)) (collapse prev lines)
    = filter (fun line => negb (matcher line)) lines.
Proof.
  induction lines as [|line rest IH]; intros prev; [reflexivity|].
  cbn [collapse filter].
  destruct (matcher line) eqn:Hm, prev; cbn [andb negb filter];
    rewrite ?Hm; cbn [negb]; now rewrite IH.
Qed.

Lemma collapse_no_adjacent (lines : list string) :
  forall prev,
    no_adjacent_matches (collapse prev lines) = true
    /\ prev && head_matches (collapse prev lines) = false.
Proof.
  induction lines as [|line rest IH]; intros prev.
  - cbn. now rewrite andb_false_r.
  - cbn [collapse]. destruct (IH (matcher line)) as [Hadj Hhead].
    destruct (matcher line) eqn:Hm, prev; cbn [andb] in *;
      cbn [no_adjacent_matches head_matches andb];
      rewrite ?Hm, ?Hhead, ?Hadj; cbn; auto.
Qed.

Lemma collapse_fixed (lines : list string) :
  forall prev,
    no_adjacent_matches lines = true ->
    prev && head_matches lines = false ->
    collapse prev lines = lines.
Proof.
  induction lines as [|line rest IH]; intros prev Hadj Hhead; [reflexivity|].
  cbn [collapse]. cbn [head_matches] in Hhead.
  cbn [no_adjacent_matches] in Hadj. apply andb_true_iff in Hadj as [H1 H2].
  apply negb_true_iff in H1.
  rewrite andb_comm, Hhead. f_equal. now apply IH.
Qed.

(** *** The machine runs the loop *)

Lemma exec_S (fuel : nat) (st : state) :
  exec (S fuel) st
  = match step st with
    | None => Some (cursor st, log st)
    | Some st' => exec fuel st'
    end.
Proof. reflexivity. Qed.

Lemma exec_loop (rest : list string) :
  forall extra i found lg,
    exec (S (length rest + extra)) (mkState rest i found lg)
    = Some (fst (loop i found rest), lg ++ snd (loop i found rest)).
Proof.
  induction rest as [|line rest IH]; intros extra i found lg.
  - cbn. now rewrite app_nil_r.
  - cbn [length Nat.add]. rewrite exec_S. cbn [step pending idx cursor log].
    rewrite body_eq, IH, loop_cons. cbn [fst snd].
    now rewrite <- app_assoc.
Qed.

(** ** Properties of a filtering pass *)

Lemma NoDup_singleton (l : list nat) (s : nat) :
  NoDup l -> (forall x, In x l <-> x = s) -> l = [s].
Proof.
  intros Hnd Hin. destruct l as [|a t].
  - destruct (proj2 (Hin s) eq_refl).
  - assert (a = s) as -> by (apply Hin; now left).
    destruct t as [|b t]; [reflexivity|].
    assert (b = s) as -> by (apply Hin; right; now left).
    inversion Hnd as [|? ? Hnotin _]. destruct Hnotin. now left.
Qed.

Lemma maximal_run_inv (lines : list string) (s k : nat) :
  maximal_run lines s k = true ->
  1 <= k
  /\ (forall j, s <= j < s + k -> matches_at lines j = true)
  /\ prev_matches lines s = false
  /\ matches_at lines (s + k) = false.
Proof.
  unfold maximal_run. intros H.
  apply andb_true_iff in H as [H Hnext].
  apply andb_true_iff in H as [H Hprev].
  apply andb_true_iff in H as [Hk Hall].
  apply Nat.leb_le in Hk. apply negb_true_iff in Hprev, Hnext.
  rewrite forallb_forall in Hall.
  repeat split; try assumption.
  intros j Hj. apply Hall, in_seq. lia.
Qed.

Lemma in_run_spec (s k j : nat) : in_run s k j = true <-> s <= j < s + k.
Proof.
  unfold in_run. rewrite andb_true_iff, Nat.leb_le, Nat.ltb_lt. reflexivity.
Qed.

(** C1.  The output is the input restricted to the written indices, which
    are strictly increasing, so the order of the input is kept; and of the
    indices of any maximal run of [k >= 1] matching lines exactly one is
    written, the first of the run. *)
Theorem run_collapse (lines : list string) :
  main lines = map (fun j => nth j lines "") (emitted lines)
  /\ StronglySorted lt (emitted lines)
  /\ forall s k,
       maximal_run lines s k = true ->
       filter (in_run s k) (emitted lines) = [s]
       /\ (forall j, in_run s k j = true -> (In j (emitted lines) <-> j = s)).
Proof.
  split; [apply main_emitted|]. split; [apply emitted_sorted|].
  intros s k Hrun.
  destruct (maximal_run_inv _ _ _ Hrun) as (Hk & Hall & Hprev & _).
  assert (Hmem : forall j, in_run s k j = true -> (In j (emitted lines) <-> j = s)).
  { intros j Hj. apply in_run_spec in Hj. rewrite emitted_In, (Hall j Hj).
    cbn [andb]. split.
    - intros [_ Hp]. destruct (Nat.eq_dec j s) as [E|E]; [exact E|].
      destruct j as [|p]; [lia|]. cbn [prev_matches] in Hp.
      rewrite Hall in Hp by lia. discriminate Hp.
    - intros ->. split; [|exact Hprev]. apply matches_at_lt, Hall. lia. }
  split; [|exact Hmem].
  apply NoDup_singleton; [apply NoDup_filter, emitted_NoDup|].
  intros j. rewrite filter_In. split.
  - intros [Hin Hj]. now apply (Hmem j Hj).
  - intros ->. assert (Hs : in_run s k s = true) by (apply in_run_spec; lia).
    split; [now apply (Hmem s Hs) | exact Hs].
Qed.

(** C2.  The non-matching lines of the output are those of the input, in
    the same order; and a line on which the matcher is false is written by
    its own iteration, its index being written exactly once. *)
Theorem nonmatching_pass_through (lines : list string) :
  filter (fun l => negb (matcher l)) (main lines)
  = filter (fun l => negb (matcher l)) lines
  /\ forall j line,
       nth_error lines j = Some line ->
       matcher line = false ->
       writes (iteration lines j) = [line]
       /\ count_occ Nat.eq_dec (emitted lines) j = 1.
Proof.
  split; [rewrite main_collapse; apply collapse_filter_nonmatching|].
  intros j line Hj Hm. split.
  - now rewrite (iteration_shape _ _ _ Hj), writes_shape, Hm.
  - apply (proj1 (NoDup_count_occ' Nat.eq_dec (emitted lines))).
    + apply emitted_NoDup.
    + apply emitted_In. split.
      * apply nth_error_Some. now rewrite Hj.
      * now rewrite (matches_at_some _ _ _ Hj), Hm.
Qed.

(** C4.  If the matcher is false on every line, the output is the input. *)
Theorem no_match_identity (lines : list string) :
  (forall line, In line lines -> matcher line = false) ->
  main lines = lines.
Proof.
  intros Hall. rewrite main_collapse. now apply collapse_no_match.
Qed.

(** C5.  If the input is not empty and the matcher is true on every line,
    the output has exactly one element, the line at index 0. *)
Theorem all_match_first_only (lines : list string) :
  lines <> [] ->
  (forall line, In line lines -> matcher line = true) ->
  length (main lines) = 1 /\ main lines = [nth 0 lines ""].
Proof.
  intros Hne Hall. destruct lines as [|first rest]; [now destruct Hne|].
  assert (Hmain : main (first :: rest) = [first]).
  { rewrite main_collapse. cbn [collapse]. rewrite andb_false_r.
    rewrite (Hall first (or_introl eq_refl)).
    rewrite collapse_all_match; [reflexivity|].
    intros l Hl. apply Hall. now right. }
  now rewrite Hmain.
Qed.

(** C6.  On the empty input the output is empty. *)
Theorem empty_input_empty_output : main [] = [] /\ iterations [] = [].
Proof. split; reflexivity. Qed.

(** C9.  The pass terminates on every finite input: run as a machine it
    leaves the loop after one step per line, so any fuel above the number
    of lines gives the result of [run]; there is one iteration per line
    and the output is no longer than the input.  The body has no failing
    path. *)
Theorem main_total (lines : list string) (extra : nat) :
  exec (S (length lines + extra)) (start lines) = Some (run lines)
  /\ length (iterations lines) = length lines
  /\ length (main lines) <= length lines.
Proof.
  repeat split.
  - unfold start. rewrite exec_loop. cbn [app]. unfold run.
    now destruct (loop 0 (-2) lines).
  - apply iterations_length.
  - rewrite main_emitted, length_map.
    apply Nat.le_trans with (length (seq 0 (length lines)));
      [|now rewrite length_seq].
    apply NoDup_incl_length; [apply emitted_NoDup|].
    intros j Hj. apply emitted_In in Hj. apply in_seq. lia.
Qed.

(** C10.  The output has no two adjacent matching lines, and a second pass
    over it changes nothing. *)
Theorem main_idempotent (lines : list string) :
  main (main lines) = main lines
  /\ no_adjacent_matches (main lines) = true.
Proof.
  rewrite !main_collapse.
  destruct (collapse_no_adjacent lines false) as [Hadj Hhead].
  split; [|exact Hadj]. now apply collapse_fixed.
Qed.

(** C3, as the loop has it.  Let lines [i < j] match with a non-matching
    line [m] between them.  A non-matching line never moves [found].  Each
    of the two lines is written exactly when the line before it does not
    match; in that case the gap [j - found] seen at line [j] is at least 2.
    The runs of [i] and [j] are distinct and the first line of each one is
    written. *)
Theorem separated_matches (lines : list string) (i m j : nat) :
  i < m < j ->
  matches_at lines i = true ->
  matches_at lines m = false ->
  matches_at lines j = true ->
  (forall n line, nth_error lines n = Some line -> matcher line = false ->
     found_after (S n) lines = found_after n lines)
  /\ (In i (emitted lines) <-> prev_matches lines i = false)
  /\ (In j (emitted lines) <-> prev_matches lines j = false)
  /\ (prev_matches lines j = false ->
      (Z.of_nat j - found_before j lines >= 2)%Z)
  /\ (exists si sj,
        si <= i /\ m < sj <= j
        /\ (forall t, si <= t <= i -> matches_at lines t = true)
        /\ (forall t, sj <= t <= j -> matches_at lines t = true)
        /\ In si (emitted lines) /\ In sj (emitted lines)).
Proof.
  intros Himj Hi Hm Hj.
  assert (Hone : forall x, matches_at lines x = true ->
                   (In x (emitted lines) <-> prev_matches lines x = false)).
  { intros x Hx. rewrite emitted_In, Hx. cbn [andb]. split; [tauto|].
    intros Hp. split; [now apply matches_at_lt | exact Hp]. }
  repeat split.
  - intros n line Hn Hline. now rewrite (found_after_S _ _ _ Hn), Hline.
  - apply (Hone i Hi).
  - apply (Hone i Hi).
  - apply (Hone j Hj).
  - apply (Hone j Hj).
  - intros Hprev. unfold found_before.
    destruct (found_after_spec lines j) as [[Hf _] | (k & Hkj & Hf & Hk & _)];
      rewrite Hf; [lia|].
    destruct j as [|p]; [lia|]. cbn [prev_matches] in Hprev.
    assert (k <> p) by (intros ->; congruence). lia.
  - destruct (run_start lines i Hi) as (si & Hsi & Hpi & Halli).
    destruct (run_start lines j Hj) as (sj & Hsj & Hpj & Hallj).
    exists si, sj.
    assert (Hmsj : m < sj).
    { destruct (Nat.le_gt_cases sj m) as [Hle|Hgt]; [|exact Hgt].
      rewrite Hallj in Hm by lia. discriminate Hm. }
    repeat split; try assumption; try lia.
    + apply Hone; [apply Halli; lia | exact Hpi].
    + apply Hone; [apply Hallj; lia | exact Hpj].
Qed.

(** C7, as the loop has it.  After any prefix of the input, [found] is the
    sentinel exactly while no line has matched and nothing matching has
    been written; otherwise it is the index [k] of the latest matching line
    processed, written or not, and the latest matching line written is the
    first line [e] of the run that ends at [k]. *)
Theorem found_tracks_last_match (lines : list string) (n : nat) :
  (found_after n lines = (-2)%Z
   /\ (forall t, t < n -> matches_at lines t = false)
   /\ last_emitted_match (firstn n lines) = None)
  \/ (exists k e,
        e <= k < n
        /\ found_after n lines = Z.of_nat k
        /\ matches_at lines k = true
        /\ (forall t, k < t < n -> matches_at lines t = false)
        /\ last_emitted_match (firstn n lines) = Some e
        /\ prev_matches lines e = false
        /\ (forall t, e <= t <= k -> matches_at lines t = true)).
Proof.
  destruct (found_after_spec lines n) as [[Hf Hnone] | (k & Hkn & Hf & Hk & Hafter)].
  - left. repeat split; [exact Hf | exact Hnone |].
    apply last_emitted_match_none. intros t. rewrite matches_at_firstn.
    destruct (Nat.ltb_spec t n) as [Ht|Ht]; [now apply Hnone | reflexivity].
  - right. destruct (run_start lines k Hk) as (e & Hek & Hprev & Hall).
    exists k, e. repeat split; try assumption; try lia.
    apply (last_emitted_match_some (firstn n lines) k e).
    + now rewrite matches_at_firstn, (proj2 (Nat.ltb_lt k n) Hkn).
    + intros t Ht. rewrite matches_at_firstn.
      destruct (Nat.ltb_spec t n) as [Htn|Htn]; [|reflexivity].
      apply Hafter. lia.
    + exact Hek.
    + destruct e as [|p]; [reflexivity|]. cbn [prev_matches] in *.
      now rewrite matches_at_firstn, Hprev, andb_false_r.
    + intros t Ht. rewrite matches_at_firstn, Hall by lia.
      now rewrite (proj2 (Nat.ltb_lt t n)) by lia.
Qed.

(** C8, as the loop has it.  Every call of the matcher in the iteration of
    a line is on that line.  A matching line that starts a run costs one
    call; a matching line that continues a run costs two, and so does a
    non-matching line; no line costs more than two. *)
Theorem matcher_calls (lines : list string) (j : nat) (line : string) :
  nth_error lines j = Some line ->
  searches (iteration lines j)
  = (if matcher line && negb (prev_matches lines j)
     then [line] else [line; line])
  /\ 1 <= length (searches (iteration lines j)) <= 2.
Proof.
  intros Hj. rewrite (iteration_shape _ _ _ Hj), searches_shape.
  split; [reflexivity|].
  destruct (matcher line && negb (prev_matches lines j)); cbn; lia.
Qed.

(** ** Further properties of the pass *)

Lemma collapse_app (l1 l2 : list string) :
  forall prev,
    collapse prev (l1 ++ l2)
    = collapse prev l1
      ++ collapse (match l1 with [] => prev | _ :: _ => last_matches l1 end) l2.
Proof.
  induction l1 as [|x l1 IH]; intros prev; [reflexivity|].
  cbn [app collapse]. rewrite IH.
  assert (Hlast : match l1 with [] => matcher x | _ :: _ => last_matches l1 end
                  = last_matches (x :: l1)).
  { destruct l1 as [|y r]; reflexivity. }
  rewrite Hlast. now destruct (matcher x && prev).
Qed.

Lemma collapse_true (lines : list string) :
  collapse true lines
  = if head_matches lines then tl (collapse false lines) else collapse false lines.
Proof.
  destruct lines as [|x r]; [reflexivity|].
  cbn [collapse head_matches]. rewrite andb_false_r, andb_true_r.
  now destruct (matcher x).
Qed.

Lemma collapse_length (lines : list string) :
  forall prev, length (collapse prev lines) <= length lines.
Proof.
  induction lines as [|x r IH]; intros prev; [reflexivity|].
  cbn [collapse]. specialize (IH (matcher x)).
  destruct (matcher x && prev); cbn [length]; lia.
Qed.

Lemma filter_length_bound (f : string -> bool) (l : list string) :
  length (filter f l) <= length l.
Proof.
  induction l as [|x r IH]; [reflexivity|].
  cbn [filter]. destruct (f x); cbn [length]; lia.
Qed.

Lemma loop_calls (lines : list string) :
  forall i found, (found < i)%Z ->
    length (searches (List.concat (snd (loop i found lines))))
    + length (filter matcher (collapse (i - found =? 1)%Z lines))
    = 2 * length lines.
Proof.
  induction lines as [|line rest IH]; intros i found Hlt; [reflexivity|].
  rewrite loop_cons. cbn [snd List.concat collapse].
  rewrite searches_app, length_app, searches_shape.
  specialize (IH _ _ (cursor_next i found line Hlt)).
  rewrite adjacent_next in IH by assumption.
  destruct (matcher line) eqn:Hm, (i - found =? 1)%Z;
    cbn [andb negb length filter]; rewrite ?Hm; cbn [length]; lia.
Qed.

Lemma seq_sorted (len : nat) : forall a, StronglySorted lt (seq a len).
Proof.
  induction len as [|len IH]; intros a; [constructor|].
  cbn [seq]. constructor; [apply IH|].
  apply Forall_forall. intros x Hx. apply in_seq in Hx. lia.
Qed.

Lemma sorted_same_elements (l1 : list nat) :
  StronglySorted lt l1 ->
  forall l2, StronglySorted lt l2 ->
    (forall x, In x l1 <-> In x l2) -> l1 = l2.
Proof.
  induction 1 as [|a l1 Hs1 IH Ha]; intros l2 Hs2 Hsame.
  - destruct l2 as [|b l2]; [reflexivity|].
    destruct (proj2 (Hsame b) (or_introl eq_refl)).
  - destruct Hs2 as [|b l2 Hs2 Hb].
    + destruct (proj1 (Hsame a) (or_introl eq_refl)).
    + rewrite Forall_forall in Ha, Hb.
      assert (Hab : a = b).
      { destruct (proj1 (Hsame a) (or_introl eq_refl)) as [E|Hin]; [now symmetry|].
        destruct (proj2 (Hsame b) (or_introl eq_refl)) as [E|Hin']; [exact E|].
        specialize (Ha b Hin'). specialize (Hb a Hin). lia. }
      subst b. f_equal. apply IH; [exact Hs2|].
      intros x. split; intros Hx.
      * destruct (proj1 (Hsame x) (or_intror Hx)) as [E|Hin]; [|exact Hin].
        specialize (Ha x Hx). lia.
      * destruct (proj2 (Hsame x) (or_intror Hx)) as [E|Hin]; [|exact Hin].
        specialize (Hb x Hx). lia.
Qed.

Lemma skipn_nth_cons (lines : list string) :
  forall n line,
    nth_error lines n = Some line ->
    skipn n lines = line :: skipn (S n) lines.
Proof.
  induction lines as [|l0 rest IH]; intros n line Hn.
  - destruct n; discriminate Hn.
  - destruct n as [|n].
    + injection Hn as ->. reflexivity.
    + cbn [nth_error] in Hn. apply (IH _ _ Hn).
Qed.

Lemma iterations_snoc (lines : list string) (n : nat) (line : string) :
  nth_error lines n = Some line ->
  iterations (firstn (S n) lines)
  = iterations (firstn n lines)
    ++ [shape (Z.of_nat n - found_after n lines =? 1)%Z line].
Proof.
  intros Hn. unfold iterations, found_after, run.
  rewrite (firstn_S_snoc _ _ _ Hn), loop_app. cbn [snd].
  rewrite loop_cons. cbn [snd loop].
  rewrite length_firstn, Nat.min_l; [reflexivity|].
  apply Nat.lt_le_incl, nth_error_Some. now rewrite Hn.
Qed.

(** X1.  Filtering a concatenation is filtering the two parts, except that
    when the first part ends with a matching line and the second starts
    with one, the first line of the second part's output is dropped. *)
Theorem main_app (l1 l2 : list string) :
  main (l1 ++ l2)
  = main l1
    ++ (if last_matches l1 && head_matches l2 then tl (main l2) else main l2).
Proof.
  rewrite !main_collapse, collapse_app.
  destruct l1 as [|x r].
  - reflexivity.
  - f_equal. destruct (last_matches (x :: r)); [|reflexivity].
    now rewrite collapse_true.
Qed.

(** X2.  The pass is online: the events of the first [n] iterations are
    those of a pass over the first [n] lines alone, and what such a pass
    writes is a prefix of the whole output. *)
Theorem main_online (lines : list string) (n : nat) :
  firstn n (iterations lines) = iterations (firstn n lines)
  /\ exists tail, main lines = main (firstn n lines) ++ tail.
Proof.
  assert (Hsplit : iterations lines
                   = iterations (firstn n lines)
                     ++ snd (loop (0 + Z.of_nat (length (firstn n lines)))
                               (fst (loop 0 (-2) (firstn n lines)))
                               (skipn n lines))).
  { unfold iterations, run.
    rewrite <- (firstn_skipn n lines) at 1. now rewrite loop_app. }
  split.
  - rewrite Hsplit, firstn_app, iterations_length.
    rewrite firstn_all2 by (rewrite iterations_length; apply firstn_le_length).
    destruct (Nat.le_gt_cases n (length lines)) as [Hle|Hgt].
    + rewrite length_firstn, Nat.min_l, Nat.sub_diag by exact Hle.
      cbn [firstn]. apply app_nil_r.
    + rewrite (skipn_all2 lines) by lia. cbn [loop snd].
      now rewrite firstn_nil, app_nil_r.
  - eexists. unfold main at 1. rewrite Hsplit, concat_app, writes_app.
    reflexivity.
Qed.

(** X3.  The written indices are exactly the indices [j] of the input, in
    increasing order, at which line [j] does not match or is line 0 or
    follows a line that does not match; the output consists of those lines. *)
Theorem emitted_kept (lines : list string) :
  emitted lines = filter (kept lines) (seq 0 (length lines))
  /\ main lines
     = map (fun j => nth j lines "") (filter (kept lines) (seq 0 (length lines))).
Proof.
  assert (H : emitted lines = filter (kept lines) (seq 0 (length lines))).
  { apply sorted_same_elements.
    - apply emitted_sorted.
    - apply StronglySorted_filter, seq_sorted.
    - intros j. rewrite emitted_In, filter_In, in_seq. unfold kept.
      rewrite negb_true_iff. split; intros [H1 H2]; (split; [lia | exact H2]). }
  split; [exact H|]. now rewrite main_emitted, H.
Qed.

(** X4.  In one pass the matcher is called twice per line, less once for
    every matching line that is written; so between once and twice per
    line overall. *)
Theorem total_matcher_calls (lines : list string) :
  length (searches (List.concat (iterations lines)))
  + length (filter matcher (main lines))
  = 2 * length lines
  /\ length lines
     <= length (searches (List.concat (iterations lines)))
     <= 2 * length lines.
Proof.
  assert (H : length (searches (List.concat (iterations lines)))
              + length (filter matcher (main lines)) = 2 * length lines).
  { rewrite main_collapse. unfold iterations, run.
    now rewrite <- (loop_calls lines 0 (-2)) by lia. }
  split; [exact H|].
  pose proof (filter_length_bound matcher (main lines)) as H1.
  rewrite main_collapse in H, H1.
  pose proof (collapse_length lines false) as H2. lia.
Qed.

(** X5.  The first input line is always the first output line, whether it
    matches or not. *)
Theorem first_line_written (lines : list string) :
  hd_error (main lines) = hd_error lines.
Proof.
  rewrite main_collapse. destruct lines as [|x r]; [reflexivity|].
  cbn [collapse]. now rewrite andb_false_r.
Qed.

(** X6.  The machine starts in the state of the empty prefix; from the
    state of a proper prefix it steps to the state of the next prefix, and
    at the end of the input it stops.  In every such state [found] is the
    sentinel or a processed index, so it is below the loop index and
    never -1. *)
Theorem step_reached (lines : list string) :
  reached lines 0 (start lines)
  /\ forall n st,
       reached lines n st ->
       (n < length lines ->
        exists st', step st = Some st' /\ reached lines (S n) st')
       /\ (length lines <= n -> step st = None)
       /\ (-2 <= cursor st < idx st)%Z
       /\ cursor st <> (-1)%Z.
Proof.
  split; [repeat split|].
  intros n st (Hp & Hi & Hc & Hl). split; [|split].
  - intros Hn. destruct (nth_error lines n) as [line|] eqn:Hline;
      [|apply nth_error_None in Hline; lia].
    unfold step. rewrite Hp, (skipn_nth_cons _ _ _ Hline), body_eq.
    eexists. split; [reflexivity|]. unfold reached. cbn [pending idx cursor log].
    repeat split.
    + rewrite Hi. lia.
    + now rewrite Hc, Hi, (found_after_S _ _ _ Hline).
    + now rewrite Hl, Hi, Hc, (iterations_snoc _ _ _ Hline).
  - intros Hn. unfold step. now rewrite Hp, skipn_all2.
  - rewrite Hc, Hi.
    destruct (found_after_spec lines n) as [[Hf _] | (k & Hk & Hf & _)];
      rewrite Hf; lia.
Qed.

End ReUniq.

(** ** Two matchers *)

Lemma loop_ext (m1 m2 : string -> bool) (lines : list string) :
  (forall line, In line lines -> m1 line = m2 line) ->
  forall i found, loop m1 i found lines = loop m2 i found lines.
Proof.
  induction lines as [|line rest IH]; intros Hsame i found; [reflexivity|].
  rewrite !loop_cons. unfold shape.
  rewrite (Hsame line (or_introl eq_refl)).
  rewrite IH; [reflexivity|]. intros l Hl. apply Hsame. now right.
Qed.

(** X7.  The pass depends on the pattern only through the lines it is run
    on: two matchers that agree on every input line give the same events,
    the same final [found] and the same output. *)
Theorem main_ext (m1 m2 : string -> bool) (lines : list string) :
  (forall line, In line lines -> m1 line = m2 line) ->
  run m1 lines = run m2 lines /\ main m1 lines = main m2 lines.
Proof.
  intros Hsame.
  assert (H : run m1 lines = run m2 lines) by now apply loop_ext.
  split; [exact H|]. unfold main, iterations. now rewrite H.
Qed.

(** ** The scenarios of the specification *)

Example scenario_1 :
  main (contains "ERROR") ["a"; "ERROR 1"; "ERROR 2"; "b"; "ERROR 3"]
  = ["a"; "ERROR 1"; "b"; "ERROR 3"].
Proof. reflexivity. Qed.

Example scenario_2 : main (contains "X") ["X"; "X"; "X"] = ["X"].
Proof. reflexivity. Qed.

Example scenario_3 : main (contains "X") ["a"; "b"; "c"] = ["a"; "b"; "c"].
Proof. reflexivity. Qed.

Example scenario_4 : main (contains "X") [] = [].
Proof. reflexivity. Qed.

Example scenario_5 : main (contains "X") ["X"; "a"; "X"] = ["X"; "a"; "X"].
Proof. reflexivity. Qed.

Example iterations_XX :
  iterations (contains "X") ["X"; "X"; "a"]
  = [[Search "X"; Write "X"]; [Search "X"; Search "X"];
     [Search "a"; Search "a"; Write "a"]].
Proof. reflexivity. Qed.

(** ** The theorems at concrete inputs *)

Lemma run_collapse_witness :
  maximal_run (contains "ERROR")
    ["a"; "ERROR 1"; "ERROR 2"; "b"; "ERROR 3"] 1 2 = true
  /\ filter (in_run 1 2)
       (emitted (contains "ERROR") ["a"; "ERROR 1"; "ERROR 2"; "b"; "ERROR 3"])
     = [1].
Proof.
  split; [reflexivity|].
  destruct (run_collapse (contains "ERROR")
              ["a"; "ERROR 1"; "ERROR 2"; "b"; "ERROR 3"]) as (_ & _ & H).
  apply (H 1 2). reflexivity.
Defined.

Lemma nonmatching_pass_through_witness :
  nth_error ["a"; "ERROR 1"; "ERROR 2"; "b"; "ERROR 3"] 3 = Some "b"
  /\ contains "ERROR" "b" = false
  /\ count_occ Nat.eq_dec
       (emitted (contains "ERROR") ["a"; "ERROR 1"; "ERROR 2"; "b"; "ERROR 3"]) 3
     = 1.
Proof.
  split; [reflexivity|]. split; [reflexivity|].
  destruct (nonmatching_pass_through (contains "ERROR")
              ["a"; "ERROR 1"; "ERROR 2"; "b"; "ERROR 3"]) as [_ H].
  apply (H 3 "b"); reflexivity.
Defined.

Lemma no_match_identity_witness :
  (forall line, In line ["a"; "b"; "c"] -> contains "X" line = false)
  /\ main (contains "X") ["a"; "b"; "c"] = ["a"; "b"; "c"].
Proof.
  assert (H : forall line, In line ["a"; "b"; "c"] -> contains "X" line = false).
  { intros line [<-|[<-|[<-|[]]]]; reflexivity. }
  split; [exact H | exact (no_match_identity (contains "X") ["a"; "b"; "c"] H)].
Defined.

Lemma all_match_first_only_witness :
  (forall line, In line ["X1"; "X2"; "X3"] -> contains "X" line = true)
  /\ main (contains "X") ["X1"; "X2"; "X3"] = ["X1"].
Proof.
  assert (H : forall line, In line ["X1"; "X2"; "X3"] -> contains "X" line = true).
  { intros line [<-|[<-|[<-|[]]]]; reflexivity. }
  split; [exact H|].
  apply (all_match_first_only (contains "X") ["X1"; "X2"; "X3"]);
    [discriminate | exact H].
Defined.

Lemma separated_matches_witness :
  (In 1 (emitted (contains "X") ["X1"; "X2"; "a"; "X3"])
   <-> prev_matches (contains "X") ["X1"; "X2"; "a"; "X3"] 1 = false)
  /\ (In 3 (emitted (contains "X") ["X1"; "X2"; "a"; "X3"])
      <-> prev_matches (contains "X") ["X1"; "X2"; "a"; "X3"] 3 = false).
Proof.
  pose proof (separated_matches (contains "X") ["X1"; "X2"; "a"; "X3"] 1 2 3)
    as H.
  destruct H as (_ & H1 & H3 & _); [lia | reflexivity ..|].
  split; [exact H1 | exact H3].
Defined.

Lemma matcher_calls_witness :
  searches (iteration (contains "X") ["X"; "X"; "a"] 1) = ["X"; "X"]
  /\ 1 <= length (searches (iteration (contains "X") ["X"; "X"; "a"] 1)) <= 2.
Proof.
  apply (matcher_calls (contains "X") ["X"; "X"; "a"] 1 "X"). reflexivity.
Defined.

(** ** Where the loop differs from what one might expect *)

(** Lines 1 and 3 match and the non-matching line 2 separates them, yet
    line 1 is not written: it continues the run that line 0 starts. *)
Lemma separated_matches_counterexample :
  matches_at (contains "X") ["X1"; "X2"; "a"; "X3"] 1 = true
  /\ matches_at (contains "X") ["X1"; "X2"; "a"; "X3"] 2 = false
  /\ matches_at (contains "X") ["X1"; "X2"; "a"; "X3"] 3 = true
  /\ ~ In 1 (emitted (contains "X") ["X1"; "X2"; "a"; "X3"])
  /\ ~ In "X2" (main (contains "X") ["X1"; "X2"; "a"; "X3"]).
Proof.
  repeat split; try reflexivity.
  - vm_compute. intros [H|[H|[H|[]]]]; discriminate H.
  - vm_compute. intros [H|[H|[H|[]]]]; discriminate H.
Qed.

(** After two adjacent matching lines [found] is 1, the index of the line
    that was suppressed; the last matching line written is line 0. *)
Lemma found_last_emitted_counterexample :
  found_after (contains "X") 2 ["X"; "X"] = 1%Z
  /\ found_after (contains "X") 2 ["X"; "X"] <> (-2)%Z
  /\ last_emitted_match (contains "X") (firstn 2 ["X"; "X"]) = Some 0
  /\ ~ (exists e, last_emitted_match (contains "X") (firstn 2 ["X"; "X"]) = Some e
                  /\ found_after (contains "X") 2 ["X"; "X"] = Z.of_nat e).
Proof.
  repeat split; try reflexivity.
  - vm_compute. discriminate.
  - vm_compute. intros (e & He & Hf). injection He as <-. discriminate Hf.
Qed.

(** A matching line that starts a run is written after a single call of
    the matcher. *)
Lemma matcher_calls_counterexample :
  contains "X" "X" = true
  /\ iteration (contains "X") ["X"] 0 = [Search "X"; Write "X"]
  /\ length (searches (iteration (contains "X") ["X"] 0)) <> 2.
Proof.
  repeat split; try reflexivity. vm_compute. discriminate.
Qed.

(** ** Further theorems at concrete inputs *)

Lemma step_reached_witness :
  reached (contains "X") ["X"; "X"; "a"] 1
    (mkState ["X"; "a"] 1 0 [[Search "X"; Write "X"]])
  /\ exists st',
       step (contains "X") (mkState ["X"; "a"] 1 0 [[Search "X"; Write "X"]])
       = Some st'
       /\ reached (contains "X") ["X"; "X"; "a"] 2 st'.
Proof.
  assert (H : reached (contains "X") ["X"; "X"; "a"] 1
                (mkState ["X"; "a"] 1 0 [[Search "X"; Write "X"]])).
  { unfold reached. repeat split. }
  split; [exact H|].
  destruct (step_reached (contains "X") ["X"; "X"; "a"]) as [_ Hstep].
  destruct (Hstep 1 _ H) as [Hnext _].
  apply Hnext. simpl. lia.
Defined.

Lemma main_ext_witness :
  (forall line, In line ["Xa"; "b"; "aX"] -> contains "X" line = contains "a" line)
  /\ main (contains "X") ["Xa"; "b"; "aX"] = main (contains "a") ["Xa"; "b"; "aX"].
Proof.
  assert (H : forall line, In line ["Xa"; "b"; "aX"] ->
                contains "X" line = contains "a" line).
  { intros line [<-|[<-|[<-|[]]]]; reflexivity. }
  split; [exact H|].
  apply (main_ext (contains "X") (contains "a") ["Xa"; "b"; "aX"] H).
Defined.
